(** * Tic Tac Toe rules engine (src/tic_tac_toe_frontend/src/App.js)

    A shallow embedding of the game logic of [App.js]: the win detection
    [calculateWinner], the values derived from the board on each render
    ([isBoardFull], [isDraw], [gameOver], [currentPlayer]), and the two
    event handlers [handleSquareClick] and [resetGame], which are the only
    places where the component state [(squares, xIsNext)] changes; and the
    view that [App], [Board] and [Square] render from a state, as far as
    the game shows in it (status line, buttons, their classes and click
    handlers).

    The board is a JavaScript array; it is modelled as a list indexed with
    stdpp's lookup [!!] and updated with stdpp's insert, with what
    JavaScript does out of range written out. *)

From stdpp Require Import base tactics decidable option list strings.

(** ** Values stored in the board *)

(** The two marks, the strings ["X"] and ["O"]. *)
Inductive player : Type := X | O.

#[global] Instance player_eq_dec : EqDecision player.
Proof. solve_decision. Defined.

(** What an array slot of [squares] can hold: [null], one of the two
    marks, or nothing at all.  [Hole] is a slot that was never written
    (it exists only after a write past the end of the array); reading it,
    like reading past the end, gives [undefined]. *)
Inductive cell : Type :=
| Hole
| Null
| Mark (p : player).

#[global] Instance cell_eq_dec : EqDecision cell.
Proof. solve_decision. Defined.

(** [Boolean(v)], the test behind [if (v)], [v && ...] and [!v]: the
    non-empty strings are the only truthy values here. *)
Definition truthy (v : cell) : bool :=
  match v with
  | Mark _ => true
  | Hole | Null => false
  end.

(** [v === w]. *)
Definition strict_eq (v w : cell) : bool := bool_decide (v = w).

(** [squares[i]]: [undefined] past the end of the array. *)
Definition get (squares : list cell) (i : nat) : cell :=
  default Hole (squares !! i).

(** [next[i] = v]: in range the slot is overwritten; past the end the
    array grows to length [i + 1] and the slots in between are holes.
    This is the write at an array index, that is, for [i] below
    [2^32 - 1]; the buttons of the board deliver 0..8 only. *)
Definition array_set (next : list cell) (i : nat) (v : cell) : list cell :=
  if decide (i < length next) then <[i := v]> next
  else next ++ replicate (i - length next) Hole ++ [v].

(** [squares.every(f)]: the callback is not called on holes. *)
Definition every (f : cell -> bool) (squares : list cell) : bool :=
  forallb (fun v => match v with Hole => true | _ => f v end) squares.

(** [Array(9).fill(null)]. *)
Definition fresh_board : list cell := replicate 9 Null.

(** ** calculateWinner *)

(** The result object [{ winner, line }]. *)
Record result : Type := Result { winner : cell; line : list nat }.

(** The constant [lines] of [calculateWinner]. *)
Definition lines : list (nat * nat * nat) :=
  [ (0, 1, 2); (3, 4, 5); (6, 7, 8);
    (0, 3, 6); (1, 4, 7); (2, 5, 8);
    (0, 4, 8); (2, 4, 6) ].

(** The condition of the [if] in the loop body. *)
Definition line_test (squares : list cell) (l : nat * nat * nat) : bool :=
  let '(a, b, c) := l in
  truthy (get squares a)
  && strict_eq (get squares a) (get squares b)
  && strict_eq (get squares a) (get squares c).

(** The [for ... of] loop with its early [return], followed by the final
    [return { winner: null, line: [] }]. *)
Fixpoint scan (squares : list cell) (ls : list (nat * nat * nat)) : result :=
  match ls with
  | [] => {| winner := Null; line := [] |}
  | (a, b, c) :: rest =>
      if line_test squares (a, b, c)
      then {| winner := get squares a; line := [a; b; c] |}
      else scan squares rest
  end.

Definition calculateWinner (squares : list cell) : result :=
  scan squares lines.

(** ** The component state and the values derived from it *)

(** The two [useState] cells of [App]. *)
Record state : Type := State { squares : list cell; xIsNext : bool }.

(** The state of the first render:
    [useState(Array(9).fill(null))], [useState(true)]. *)
Definition initial : state :=
  {| squares := fresh_board; xIsNext := true |}.

Definition isBoardFull (sq : list cell) : bool := every truthy sq.

Definition isDraw (sq : list cell) : bool :=
  negb (truthy (winner (calculateWinner sq))) && isBoardFull sq.

Definition gameOver (sq : list cell) : bool :=
  truthy (winner (calculateWinner sq)) || isDraw sq.

Definition currentPlayer (st : state) : player :=
  if xIsNext st then X else O.

(** The outcome shown by the status line: [statusText] tests [winner]
    first, then [isDraw], and otherwise names the player to move.  This is
    the derived value the specification calls [evaluate(board)]. *)
Inductive outcome : Type :=
| InProgress
| Won (w : player) (l : list nat)
| Draw.

Definition evaluate (sq : list cell) : outcome :=
  let r := calculateWinner sq in
  match winner r with
  | Mark w => Won w (line r)
  | Hole | Null => if isDraw sq then Draw else InProgress
  end.

(** ** The event handlers *)

(** [handleSquareClick(index)], the specification's [applyMove]: the
    state after the click. *)
Definition handleSquareClick (st : state) (index : nat) : state :=
  if truthy (get (squares st) index) || gameOver (squares st) then st
  else
    let next := squares st in
    {| squares := array_set next index (Mark (currentPlayer st));
       xIsNext := negb (xIsNext st) |}.

(** [resetGame()], the specification's [reset]. *)
Definition resetGame (st : state) : state :=
  {| squares := replicate 9 Null; xIsNext := true |}.

(** A run of clicks, first click first. *)
Definition play (st : state) (clicks : list nat) : state :=
  foldl handleSquareClick st clicks.

(** The states the game can be in: the board offers one button per cell,
    so a click carries an index 0..8. *)
Inductive reachable : state -> Prop :=
| reachable_initial : reachable initial
| reachable_click st index :
    reachable st -> index < 9 -> reachable (handleSquareClick st index).

(** ** Vocabulary of the specification *)

(** All three cells of the line hold the mark [w]. *)
Definition filled_by (sq : list cell) (w : player) (l : nat * nat * nat) : Prop :=
  let '(a, b, c) := l in
  get sq a = Mark w /\ get sq b = Mark w /\ get sq c = Mark w.

(** The line is completed: its three cells are equal and not empty. *)
Definition completed (sq : list cell) (l : nat * nat * nat) : Prop :=
  exists w, filled_by sq w l.

(** A board in the sense of the data model: 9 cells, each [null], ["X"]
    or ["O"]. *)
Definition is_board (sq : list cell) : Prop :=
  length sq = 9 /\ Forall (fun v => v <> Hole) sq.

(** The number of cells holding the mark [w]. *)
Definition count_mark (w : player) (sq : list cell) : nat :=
  length (filter (fun v => v = Mark w) sq).

(** The winning lines as the specification lists them: the rows from top
    to bottom, the columns from left to right, the two diagonals; cell
    [(row, col)] has index [3 * row + col]. *)
Definition row_line (r : nat) : nat * nat * nat := (3 * r, 3 * r + 1, 3 * r + 2).
Definition col_line (c : nat) : nat * nat * nat := (c, 3 + c, 6 + c).
Definition diagonals : list (nat * nat * nat) := [ (0, 4, 8); (2, 4, 6) ].
Definition spec_lines : list (nat * nat * nat) :=
  map row_line [0; 1; 2] ++ map col_line [0; 1; 2] ++ diagonals.

(** The other player. *)
Definition other (w : player) : player :=
  match w with X => O | O => X end.

(** The index is one of the three of the line. *)
Definition on_line (i : nat) (l : nat * nat * nat) : Prop :=
  let '(a, b, c) := l in i = a \/ i = b \/ i = c.

(** The array [[a, b, c]] of the indices of a line. *)
Definition triple (l : nat * nat * nat) : list nat :=
  let '(a, b, c) := l in [a; b; c].

(** ** Invariants of play *)

(** The turn flag tells how the two counts compare. *)
Definition counts_agree (st : state) : Prop :=
  count_mark X (squares st)
  = count_mark O (squares st) + (if xIsNext st then 0 else 1).

(** Every completed line passes through the cell [i], which holds the
    mark of all of them: [i] is the cell of the last move. *)
Definition through (sq : list cell) (i : nat) : Prop :=
  forall l w, l ∈ lines -> filled_by sq w l -> on_line i l /\ get sq i = Mark w.

(** The state [st] is what the accepted click on cell [i] made of a state
    of play: the cell was empty and the game in progress, so the click
    placed a mark there.  Clicks that are refused afterwards leave the
    state as it is, so [i] is the cell of the last move made. *)
Definition last_move (st : state) (i : nat) : Prop :=
  exists st0,
    reachable st0 /\ i < 9
    /\ truthy (get (squares st0) i) = false
    /\ gameOver (squares st0) = false
    /\ st = handleSquareClick st0 i.

(** ** Boards and runs used as examples *)

(** A board that no game produces: the top row is all ["X"] and the
    middle row is all ["O"]. *)
Definition both_rows : list cell :=
  [ Mark X; Mark X; Mark X;
    Mark O; Mark O; Mark O;
    Null;   Null;   Null ].

(** A full board without three in a row. *)
Definition drawn_board : list cell :=
  [ Mark X; Mark O; Mark X;
    Mark X; Mark O; Mark O;
    Mark O; Mark X; Mark X ].

(** The run X@0, O@3, X@1, O@4, X@2. *)
Definition top_row_clicks : list nat := [0; 3; 1; 4; 2].

(** A run whose ninth click, X@0, completes the top row and the left
    column with the same mark. *)
Definition double_win_clicks : list nat := [1; 4; 2; 5; 3; 7; 6; 8; 0].

(** ** The two players exchanged *)

(** The cell with ["X"] and ["O"] exchanged. *)
Definition swap_cell (v : cell) : cell :=
  match v with
  | Mark p => Mark (other p)
  | Hole => Hole
  | Null => Null
  end.

(** The state with the marks exchanged on the board and the other player
    to move. *)
Definition swap_state (st : state) : state :=
  {| squares := swap_cell <$> squares st; xIsNext := negb (xIsNext st) |}.

(** A run of nine clicks that fills the board without three in a row. *)
Definition drawn_clicks : list nat := [0; 1; 2; 4; 3; 5; 7; 6; 8].

(** ** The rendered view *)

(** The text of a value in a template literal or after [String(v)]; the
    marks are their own text. *)
Definition mark_string (p : player) : string :=
  match p with X => "X" | O => "O" end.

Definition cell_string (v : cell) : string :=
  match v with
  | Mark p => mark_string p
  | Null => "null"
  | Hole => "undefined"
  end.

(** [s.toLowerCase()] on text in ASCII. *)
Definition lower_ascii (c : Ascii.ascii) : Ascii.ascii :=
  let n := Ascii.nat_of_ascii c in
  if (65 <=? n) && (n <=? 90) then Ascii.ascii_of_nat (n + 32) else c.

Fixpoint toLowerCase (s : string) : string :=
  match s with
  | EmptyString => EmptyString
  | String c rest => String (lower_ascii c) (toLowerCase rest)
  end.

(** The props of [Square].  [onClick] is a closure; calling it gives the
    state the click leads to. *)
Record square_props : Type := SquareProps {
  value : cell;
  onClick : unit -> state;
  isWinning : bool;
  disabled : bool;
}.

(** The [<button>] element that [Square] returns (its constant attribute
    [type="button"] left out). *)
Record button : Type := Button {
  className : string;
  button_onClick : unit -> state;
  button_disabled : bool;
  aria_label : string;
  children : cell;
}.

Definition Square (props : square_props) : button :=
  let filledClass :=
    if truthy (value props)
    then " filled " +:+ toLowerCase (cell_string (value props))
    else "" in
  let winClass := if isWinning props then " winning" else "" in
  {| className := "square" +:+ filledClass +:+ winClass;
     button_onClick := onClick props;
     button_disabled := disabled props || truthy (value props);
     aria_label :=
       "Board square "
       +:+ (if truthy (value props) then cell_string (value props) else "empty");
     children := value props |}.

(** [winningLine.includes(idx)]. *)
Definition includes (winningLine : list nat) (idx : nat) : bool :=
  bool_decide (idx ∈ winningLine).

(** The children of the grid that [Board] returns: [squares.map] calls
    its callback with each value and its index and leaves holes as holes,
    which render as nothing ([None]). *)
Definition Board (sq : list cell) (onSquareClick : nat -> state)
    (winningLine : list nat) (dis : bool) : list (option button) :=
  imap (fun idx val =>
          match val with
          | Hole => None
          | _ =>
              Some (Square {| value := val;
                              onClick := fun _ => onSquareClick idx;
                              isWinning := includes winningLine idx;
                              disabled := dis |})
          end) sq.

(** The status line. *)
Definition statusText (st : state) : string :=
  let winner := winner (calculateWinner (squares st)) in
  if truthy winner then "Winner: " +:+ cell_string winner
  else if isDraw (squares st) then "It's a draw!"
  else "Current player: " +:+ mark_string (currentPlayer st).

(** What [App] renders from a state: the title, the status line, the
    board, and the click handler of the Play Again button. *)
Record app_view : Type := AppView {
  title : string;
  status : string;
  board : list (option button);
  play_again : unit -> state;
}.

Definition App (st : state) : app_view :=
  let r := calculateWinner (squares st) in
  {| title := "Tic Tac Toe";
     status := statusText st;
     board := Board (squares st) (handleSquareClick st) (line r)
                (truthy (winner r));
     play_again := fun _ => resetGame st |}.

(** * Properties *)

(** ** Reading and writing the array *)

Section Arrays.
Implicit Types (sq : list cell) (i j : nat) (v : cell) (w : player).

Lemma truthy_Mark v : truthy v = true <-> exists w, v = Mark w.
Proof.
  destruct v; simpl; split; intros H; try discriminate; eauto.
  - destruct H as [? ?]; discriminate.
  - destruct H as [? ?]; discriminate.
Qed.

Lemma truthy_false_not_Mark v w : truthy v = false -> v <> Mark w.
Proof. intros H ->. discriminate. Qed.

Lemma get_ge sq i : length sq <= i -> get sq i = Hole.
Proof. intros H. unfold get. by rewrite lookup_ge_None_2. Qed.

Lemma get_array_set_eq sq i v : get (array_set sq i v) i = v.
Proof.
  unfold get, array_set. case_decide as Hi.
  - by rewrite list_lookup_insert_eq.
  - rewrite lookup_app_r by lia.
    rewrite lookup_app_r; rewrite length_replicate; [|lia].
    by replace (i - length sq - (i - length sq)) with 0 by lia.
Qed.

Lemma get_array_set_ne sq i j v : i <> j -> get (array_set sq i v) j = get sq j.
Proof.
  intros Hne. unfold get, array_set. case_decide as Hi.
  - by rewrite list_lookup_insert_ne.
  - destruct (decide (j < length sq)) as [Hj|Hj].
    + by rewrite lookup_app_l.
    + rewrite (lookup_ge_None_2 sq j) by lia.
      rewrite lookup_app_r by lia.
      destruct (decide (j < i)) as [Hji|Hji].
      * rewrite lookup_app_l by (rewrite length_replicate; lia).
        by rewrite lookup_replicate_2 by lia.
      * rewrite lookup_ge_None_2; [done|].
        rewrite length_app, length_replicate. simpl. lia.
Qed.

Lemma length_array_set_lt sq i v :
  i < length sq -> length (array_set sq i v) = length sq.
Proof. intros Hi. unfold array_set. rewrite decide_True by done. apply length_insert. Qed.

Lemma array_set_lt sq i v :
  i < length sq -> array_set sq i v = take i sq ++ v :: drop (S i) sq.
Proof.
  intros Hi. unfold array_set. rewrite decide_True by done.
  by apply insert_take_drop.
Qed.

Lemma count_mark_app w sq1 sq2 :
  count_mark w (sq1 ++ sq2) = count_mark w sq1 + count_mark w sq2.
Proof. unfold count_mark. by rewrite filter_app, length_app. Qed.

Lemma count_mark_cons w v sq :
  count_mark w (v :: sq)
  = (if decide (v = Mark w) then 1 else 0) + count_mark w sq.
Proof.
  unfold count_mark. rewrite filter_cons. by case_decide.
Qed.

Lemma count_mark_holes w n : count_mark w (replicate n Hole) = 0.
Proof.
  induction n as [|n IH]; [done|]. simpl.
  rewrite count_mark_cons, IH. by rewrite decide_False.
Qed.

(** Writing a mark into a cell that holds none adds one to the count of
    that mark and leaves the count of the other one alone. *)
Lemma count_mark_array_set w sq i p :
  truthy (get sq i) = false ->
  count_mark w (array_set sq i (Mark p))
  = count_mark w sq + (if decide (p = w) then 1 else 0).
Proof.
  intros Hfree. destruct (decide (i < length sq)) as [Hi|Hi].
  - rewrite array_set_lt by done.
    destruct (lookup_lt_is_Some_2 sq i Hi) as [v Hv].
    assert (Hget : get sq i = v) by (unfold get; by rewrite Hv).
    rewrite <- (take_drop_middle sq i v Hv) at 3.
    rewrite !count_mark_app, !count_mark_cons.
    rewrite (decide_False (P := v = Mark w)).
    2:{ apply truthy_false_not_Mark. by rewrite <- Hget. }
    repeat case_decide; try congruence; lia.
  - unfold array_set. rewrite decide_False by done.
    rewrite !count_mark_app, count_mark_holes, count_mark_cons.
    change (count_mark w []) with 0.
    repeat case_decide; try congruence; lia.
Qed.
End Arrays.

(** ** The scan of the winning lines *)

Section Scan.
Implicit Types (sq : list cell) (l : nat * nat * nat) (w : player).

Lemma scan_cons sq a b c rest :
  scan sq ((a, b, c) :: rest)
  = if line_test sq (a, b, c)
    then {| winner := get sq a; line := [a; b; c] |}
    else scan sq rest.
Proof. reflexivity. Qed.

Lemma other_neq w1 w2 : w1 <> w2 -> w1 = other w2.
Proof. destruct w1, w2; simpl; congruence. Qed.

Lemma lines_spec_lines : lines = spec_lines.
Proof. reflexivity. Qed.

Lemma line_test_filled sq a b c :
  line_test sq (a, b, c) = true ->
  exists w, get sq a = Mark w /\ filled_by sq w (a, b, c).
Proof.
  unfold line_test, strict_eq. intros H.
  apply andb_prop in H as [H Hc]. apply andb_prop in H as [Ha Hb].
  apply truthy_Mark in Ha as [w Ha].
  apply bool_decide_eq_true in Hb. apply bool_decide_eq_true in Hc.
  exists w. simpl. split; [done|]. repeat split; congruence.
Qed.

Lemma filled_line_test sq w l : filled_by sq w l -> line_test sq l = true.
Proof.
  destruct l as [[a b] c]. intros (Ha & Hb & Hc).
  unfold line_test, strict_eq. rewrite Ha, Hb, Hc. simpl.
  by rewrite bool_decide_eq_true_2.
Qed.

Lemma line_test_completed sq l : line_test sq l = true <-> completed sq l.
Proof.
  split.
  - destruct l as [[a b] c]. intros H.
    destruct (line_test_filled _ _ _ _ H) as (w & _ & Hw). by exists w.
  - intros [w Hw]. by eapply filled_line_test.
Qed.

Lemma line_test_false sq l : line_test sq l = false <-> ~ completed sq l.
Proof.
  rewrite <- line_test_completed. by destruct (line_test sq l).
Qed.

Lemma filled_by_on_line sq w l i :
  filled_by sq w l -> on_line i l -> get sq i = Mark w.
Proof.
  destruct l as [[a b] c]. intros (Ha & Hb & Hc) [->|[->| ->]]; done.
Qed.

(** The loop either falls through, and then no line of the list is
    completed, or it returns at the first completed line of the list. *)
Lemma scan_cases sq ls :
  (scan sq ls = Result Null [] /\ forall l, l ∈ ls -> ~ completed sq l)
  \/ (exists pre l post w,
        ls = pre ++ l :: post
        /\ (forall l', l' ∈ pre -> ~ completed sq l')
        /\ filled_by sq w l
        /\ scan sq ls = Result (Mark w) (triple l)).
Proof.
  induction ls as [|[[a b] c] rest IH].
  - left. split; [done|]. intros l Hl. by apply elem_of_nil in Hl.
  - rewrite scan_cons. destruct (line_test sq (a, b, c)) eqn:Ht.
    + right. destruct (line_test_filled _ _ _ _ Ht) as (w & Ha & Hw).
      exists [], (a, b, c), rest, w. rewrite Ha.
      split; [done|]. split; [|done].
      intros l' Hl'. by apply elem_of_nil in Hl'.
    + apply line_test_false in Ht.
      destruct IH as [[Hs Hnone]|(pre & l & post & w & -> & Hpre & Hw & Hs)].
      * left. split; [done|]. intros l Hl.
        apply elem_of_cons in Hl as [->|Hl]; auto.
      * right. exists ((a, b, c) :: pre), l, post, w.
        split; [done|]. split; [|done].
        intros l' Hl'. apply elem_of_cons in Hl' as [->|Hl']; auto.
Qed.

(** The winner the loop reports, whatever the list of lines it runs on. *)
Lemma scan_winner_iff sq ls w :
  winner (scan sq ls) = Mark w
  <-> exists pre l post,
        ls = pre ++ l :: post
        /\ filled_by sq w l
        /\ forall l', l' ∈ pre -> ~ filled_by sq (other w) l'.
Proof.
  split.
  - intros Hw.
    destruct (scan_cases sq ls)
      as [[Hs _]|(pre & l & post & w' & -> & Hpre & Hl & Hs)];
      rewrite Hs in Hw; simpl in Hw; [discriminate|].
    injection Hw as ->. exists pre, l, post.
    split; [done|]. split; [done|].
    intros l' Hl' Hf. apply (Hpre l' Hl'). by exists (other w).
  - revert w. induction ls as [|[[a b] c] rest IH];
      intros w (pre & l & post & Heq & Hl & Hpre).
    + by destruct pre.
    + rewrite scan_cons. destruct pre as [|l0 pre]; simpl in Heq; simplify_eq.
      * rewrite (filled_line_test _ _ _ Hl). simpl. by destruct Hl.
      * destruct (line_test sq (a, b, c)) eqn:Ht.
        -- destruct (line_test_filled _ _ _ _ Ht) as (w0 & Ha & Hw0).
           simpl. rewrite Ha. destruct (decide (w0 = w)) as [->|Hne]; [done|].
           apply other_neq in Hne. subst w0.
           exfalso. apply (Hpre (a, b, c)); [apply list_elem_of_here|done].
        -- apply IH. exists pre, l, post.
           split; [done|]. split; [done|].
           intros l' Hl'. apply Hpre. by apply list_elem_of_further.
Qed.

Lemma scan_winner_not_Hole sq ls : winner (scan sq ls) <> Hole.
Proof.
  destruct (scan_cases sq ls) as [[Hs _]|(pre & l & post & w & _ & _ & _ & Hs)];
    by rewrite Hs.
Qed.
End Scan.

(** ** The derived outcome *)

Section Outcome.
Implicit Types (sq : list cell) (l : nat * nat * nat) (w : player).

Lemma evaluate_Won sq w t :
  evaluate sq = Won w t <-> calculateWinner sq = Result (Mark w) t.
Proof.
  unfold evaluate. destruct (calculateWinner sq) as [v t']. simpl.
  destruct v; [destruct (isDraw sq)..|]; split; intros H; by simplify_eq.
Qed.

Lemma evaluate_Won_winner sq w :
  (exists t, evaluate sq = Won w t) <-> winner (calculateWinner sq) = Mark w.
Proof.
  split.
  - intros [t Ht]. apply evaluate_Won in Ht. by rewrite Ht.
  - intros Hw. exists (line (calculateWinner sq)). apply evaluate_Won.
    destruct (calculateWinner sq) as [v t]. simpl in *. by subst.
Qed.

Lemma gameOver_evaluate sq : gameOver sq = true <-> evaluate sq <> InProgress.
Proof.
  unfold gameOver, evaluate.
  destruct (winner (calculateWinner sq)); simpl; destruct (isDraw sq); done.
Qed.

Lemma gameOver_false_not_completed sq l :
  gameOver sq = false -> l ∈ lines -> ~ completed sq l.
Proof.
  intros Hg Hl Hc. unfold gameOver in Hg. apply orb_false_elim in Hg as [Hw _].
  destruct (scan_cases sq lines)
    as [[_ Hnone]|(pre & l' & post & w & _ & _ & _ & Hs)].
  - by apply (Hnone l).
  - unfold calculateWinner in Hw. by rewrite Hs in Hw.
Qed.
End Outcome.

(** ** Win detection *)

Section WinDetection.
Implicit Types (sq : list cell) (l : nat * nat * nat) (w : player).

(** C1, as the specification states it, fails on a board with a completed
    line of each mark: on [both_rows] the middle row is all ["O"], but the
    scan stops at the top row and reports ["X"]. *)
Lemma evaluate_winner_iff_any_line_fails :
  is_board both_rows
  /\ evaluate both_rows = Won X [0; 1; 2]
  /\ ~ ((exists t, evaluate both_rows = Won O t)
        <-> (exists l, l ∈ lines /\ filled_by both_rows O l)).
Proof.
  split; [|split].
  - split; [reflexivity|]. unfold both_rows. repeat constructor; discriminate.
  - reflexivity.
  - intros [_ H]. destruct H as [t Ht].
    + exists (3, 4, 5). split; [|by repeat split].
      apply list_elem_of_In. simpl. tauto.
    + discriminate Ht.
Qed.

(** C1 (amended): on every board, [evaluate] reports the winner [w]
    exactly when some winning line has all three cells equal to [w] and no
    line before it in the scan order is filled by the other mark. *)
Theorem evaluate_winner_iff sq w :
  (exists t, evaluate sq = Won w t)
  <-> exists pre l post,
        lines = pre ++ l :: post
        /\ filled_by sq w l
        /\ forall l', l' ∈ pre -> ~ filled_by sq (other w) l'.
Proof.
  rewrite evaluate_Won_winner. unfold calculateWinner. apply scan_winner_iff.
Qed.

(** C5: the lines scanned are the three rows from top to bottom, the three
    columns from left to right and the two diagonals, eight in all; and on
    every board either none of them is completed and no winner is
    reported, or the result is the mark and the triple of the first
    completed line in that order. *)
Theorem evaluate_first_match :
  lines = map row_line [0; 1; 2] ++ map col_line [0; 1; 2] ++ diagonals
  /\ length lines = 8
  /\ forall sq,
      (calculateWinner sq = Result Null []
       /\ (forall w t, evaluate sq <> Won w t)
       /\ forall l, l ∈ spec_lines -> ~ completed sq l)
      \/ (exists pre l post w,
            spec_lines = pre ++ l :: post
            /\ (forall l', l' ∈ pre -> ~ completed sq l')
            /\ filled_by sq w l
            /\ calculateWinner sq = Result (Mark w) (triple l)
            /\ evaluate sq = Won w (triple l)).
Proof.
  split; [reflexivity|]. split; [reflexivity|]. intros sq.
  rewrite <- lines_spec_lines.
  destruct (scan_cases sq lines)
    as [[Hs Hnone]|(pre & l & post & w & Heq & Hpre & Hl & Hs)].
  - left. split; [done|]. split; [|done].
    intros w t Hw. apply evaluate_Won in Hw.
    unfold calculateWinner in Hw. congruence.
  - right. exists pre, l, post, w.
    split; [done|]. split; [done|]. split; [done|]. split; [done|].
    by apply evaluate_Won.
Qed.

(** C10: [calculateWinner] always returns a result object; a reported
    winner comes with one of the eight triples, all three cells of which
    hold that mark, and [winner = null] comes with the empty line. *)
Theorem calculateWinner_well_formed sq :
  match winner (calculateWinner sq) with
  | Mark w =>
      exists l, l ∈ lines
                /\ line (calculateWinner sq) = triple l
                /\ filled_by sq w l
  | Null => line (calculateWinner sq) = []
  | Hole => False
  end.
Proof.
  unfold calculateWinner.
  destruct (scan_cases sq lines)
    as [[Hs _]|(pre & l & post & w & Heq & _ & Hl & Hs)]; rewrite Hs; simpl.
  - done.
  - exists l. split; [|done]. rewrite Heq.
    apply elem_of_app. right. apply list_elem_of_here.
Qed.
End WinDetection.

(** ** Draw and in-progress *)

Section Draw.
Implicit Types (sq : list cell) (l : nat * nat * nat) (w : player).

Lemma get_cons_0 v sq : get (v :: sq) 0 = v.
Proof. reflexivity. Qed.

Lemma get_cons_S v sq i : get (v :: sq) (S i) = get sq i.
Proof. reflexivity. Qed.

(** On an array without holes, [every(Boolean)] holds exactly when every
    index below the length reads a truthy value. *)
Lemma every_truthy_no_holes sq :
  Forall (fun v => v <> Hole) sq ->
  every truthy sq = true <-> forall i, i < length sq -> truthy (get sq i) = true.
Proof.
  induction 1 as [|v sq Hv _ IH]; simpl.
  - split; [|done]. intros _ i Hi. lia.
  - rewrite andb_true_iff, IH. split.
    + intros [Hhead Htail] [|i] Hi.
      * rewrite get_cons_0. by destruct v.
      * rewrite get_cons_S. apply Htail. lia.
    + intros Hall. split.
      * specialize (Hall 0 ltac:(lia)). rewrite get_cons_0 in Hall.
        by destruct v.
      * intros i Hi. apply (Hall (S i)). lia.
Qed.

Lemma no_completed_winner_Null sq :
  (forall l, l ∈ lines -> ~ completed sq l) ->
  calculateWinner sq = Result Null [].
Proof.
  intros Hnone. unfold calculateWinner.
  destruct (scan_cases sq lines)
    as [[Hs _]|(pre & l & post & w & Heq & _ & Hl & _)]; [done|].
  exfalso. apply (Hnone l); [|by exists w].
  rewrite Heq. apply elem_of_app. right. apply list_elem_of_here.
Qed.

Lemma no_completed_evaluate sq :
  (forall l, l ∈ lines -> ~ completed sq l) ->
  evaluate sq = if isBoardFull sq then Draw else InProgress.
Proof.
  intros Hnone. unfold evaluate, isDraw.
  by rewrite (no_completed_winner_Null _ Hnone).
Qed.

(** C6: on a board where no winning line is completed, [evaluate] returns
    draw if all 9 cells are filled, and in-progress otherwise, that is,
    when some cell is empty. *)
Theorem evaluate_no_winner sq :
  is_board sq ->
  (forall l, l ∈ lines -> ~ completed sq l) ->
  ((forall i, i < 9 -> exists w, get sq i = Mark w) -> evaluate sq = Draw)
  /\ (~ (forall i, i < 9 -> exists w, get sq i = Mark w) ->
      evaluate sq = InProgress)
  /\ ((exists i, i < 9 /\ get sq i = Null) -> evaluate sq = InProgress).
Proof.
  intros [Hlen Hholes] Hnone. rewrite (no_completed_evaluate _ Hnone).
  unfold isBoardFull.
  pose proof (every_truthy_no_holes sq Hholes) as Hevery. rewrite Hlen in Hevery.
  destruct (every truthy sq).
  - assert (Hfull : forall i, i < 9 -> exists w, get sq i = Mark w).
    { intros i Hi. apply truthy_Mark. by apply Hevery. }
    split; [done|]. split.
    + intros Hnot. by destruct Hnot.
    + intros (i & Hi & Hnull). destruct (Hfull i Hi) as [w Hw]. congruence.
  - split; [|by split].
    intros Hfull. assert (Habs : false = true); [|discriminate Habs].
    apply Hevery. intros i Hi. apply truthy_Mark. by apply Hfull.
Qed.

Lemma drawn_board_no_line l : l ∈ lines -> ~ completed drawn_board l.
Proof.
  intros Hl. apply line_test_false. revert l Hl.
  apply Forall_forall. unfold lines. repeat constructor.
Qed.

Lemma evaluate_no_winner_witness : evaluate drawn_board = Draw.
Proof.
  apply (evaluate_no_winner drawn_board).
  - split; [reflexivity|]. unfold drawn_board. repeat constructor; discriminate.
  - apply drawn_board_no_line.
  - intros i Hi.
    do 9 (destruct i as [|i]; [eexists; reflexivity|]). lia.
Defined.
End Draw.

(** ** Clicks and reset *)

Section Handlers.
Implicit Types (st : state) (sq : list cell) (w : player).

(** C3: a click on a cell that already holds a mark, or a click when the
    game is over (a winner is reported or the board is a draw), leaves the
    board and the turn unchanged; the handler returns normally. *)
Theorem handleSquareClick_noop st index :
  (exists w, get (squares st) index = Mark w)
  \/ (exists w t, evaluate (squares st) = Won w t)
  \/ evaluate (squares st) = Draw ->
  handleSquareClick st index = st
  /\ squares (handleSquareClick st index) = squares st
  /\ xIsNext (handleSquareClick st index) = xIsNext st.
Proof.
  intros H.
  assert (Hst : handleSquareClick st index = st); [|by rewrite Hst].
  unfold handleSquareClick.
  destruct H as [Hocc|Hover].
  - apply truthy_Mark in Hocc. by rewrite Hocc.
  - assert (Hg : gameOver (squares st) = true).
    { apply gameOver_evaluate. destruct Hover as [(w & t & ->)| ->]; done. }
    rewrite Hg. by rewrite orb_true_r.
Qed.

Lemma handleSquareClick_noop_witness :
  handleSquareClick (State both_rows false) 4 = State both_rows false.
Proof.
  apply (handleSquareClick_noop (State both_rows false) 4).
  left. exists O. reflexivity.
Defined.

Lemma handleSquareClick_free st index :
  truthy (get (squares st) index) = false ->
  gameOver (squares st) = false ->
  handleSquareClick st index
  = {| squares := array_set (squares st) index (Mark (currentPlayer st));
       xIsNext := negb (xIsNext st) |}.
Proof. intros Hfree Hg. unfold handleSquareClick. by rewrite Hfree, Hg. Qed.

(** The click either changes nothing or places the mover's mark on a cell
    that held none, on a board without a completed line. *)
Lemma handleSquareClick_cases st index :
  handleSquareClick st index = st
  \/ (truthy (get (squares st) index) = false
      /\ gameOver (squares st) = false
      /\ handleSquareClick st index
         = {| squares := array_set (squares st) index (Mark (currentPlayer st));
              xIsNext := negb (xIsNext st) |}).
Proof.
  unfold handleSquareClick.
  destruct (truthy (get (squares st) index)); [by left|].
  destruct (gameOver (squares st)); [by left|]. by right.
Qed.

(** C4: a click on an empty cell of a 9-cell board while the game is in
    progress gives the board in which that cell holds the mover's mark and
    every other cell is as before, and flips the turn. *)
Theorem handleSquareClick_move st index :
  length (squares st) = 9 ->
  index < 9 ->
  truthy (get (squares st) index) = false ->
  evaluate (squares st) = InProgress ->
  handleSquareClick st index
  = {| squares := <[index := Mark (currentPlayer st)]> (squares st);
       xIsNext := negb (xIsNext st) |}
  /\ get (squares (handleSquareClick st index)) index = Mark (currentPlayer st)
  /\ (forall j, j <> index ->
        get (squares (handleSquareClick st index)) j = get (squares st) j)
  /\ length (squares (handleSquareClick st index)) = 9
  /\ xIsNext (handleSquareClick st index) = negb (xIsNext st)
  /\ currentPlayer (handleSquareClick st index) = other (currentPlayer st).
Proof.
  intros Hlen Hi Hfree Hprog.
  assert (Hg : gameOver (squares st) = false).
  { destruct (gameOver (squares st)) eqn:Hg; [|done].
    apply gameOver_evaluate in Hg. by destruct Hg. }
  rewrite (handleSquareClick_free _ _ Hfree Hg). simpl.
  split; [|split; [|split; [|split; [|split]]]].
  - unfold array_set. rewrite decide_True; [done|lia].
  - apply get_array_set_eq.
  - intros j Hj. by apply get_array_set_ne.
  - rewrite length_array_set_lt; [done|lia].
  - done.
  - unfold currentPlayer. simpl. by destruct (xIsNext st).
Qed.

Lemma handleSquareClick_move_witness :
  handleSquareClick initial 4
  = {| squares := <[4 := Mark X]> fresh_board; xIsNext := false |}.
Proof.
  apply (handleSquareClick_move initial 4); [reflexivity|lia|reflexivity..].
Defined.

(** C8: [resetGame], from any state, gives the state of the first render:
    nine [null] cells and X to move. *)
Theorem resetGame_initial st :
  resetGame st = initial
  /\ squares (resetGame st)
     = [Null; Null; Null; Null; Null; Null; Null; Null; Null]
  /\ xIsNext (resetGame st) = true
  /\ currentPlayer (resetGame st) = X
  /\ evaluate (squares (resetGame st)) = InProgress.
Proof. repeat split. Qed.

(** C9: after the clicks 0, 3, 1, 4, 2 from the initial state, which place
    X, O, X, O, X in turn, [evaluate] reports the winner ["X"] with the
    line [[0, 1, 2]]. *)
Theorem top_row_scenario :
  squares (play initial top_row_clicks)
  = [ Mark X; Mark X; Mark X; Mark O; Mark O; Null; Null; Null; Null ]
  /\ evaluate (squares (play initial top_row_clicks)) = Won X [0; 1; 2].
Proof. split; reflexivity. Qed.
End Handlers.

(** ** Invariants of play *)

Section Play.
Implicit Types (st : state) (sq : list cell) (l : nat * nat * nat) (w : player).

Lemma play_snoc st clicks index :
  play st (clicks ++ [index]) = handleSquareClick (play st clicks) index.
Proof. unfold play. by rewrite foldl_app. Qed.

Lemma reachable_play clicks :
  Forall (fun index => index < 9) clicks -> reachable (play initial clicks).
Proof.
  induction clicks as [|index clicks IH] using rev_ind; intros Hall.
  - apply reachable_initial.
  - apply Forall_app in Hall as [Hclicks Hindex].
    rewrite play_snoc. apply reachable_click; [by apply IH|].
    by inversion Hindex.
Qed.

Lemma counts_agree_click st index :
  counts_agree st -> counts_agree (handleSquareClick st index).
Proof.
  intros Hst.
  destruct (handleSquareClick_cases st index) as [->|(Hfree & _ & ->)]; [done|].
  unfold counts_agree in *. simpl.
  rewrite !count_mark_array_set by done. unfold currentPlayer.
  destruct (xIsNext st); simpl; repeat case_decide; try congruence; lia.
Qed.

Lemma reachable_counts_agree st : reachable st -> counts_agree st.
Proof.
  induction 1 as [|st index _ IH _].
  - reflexivity.
  - by apply counts_agree_click.
Qed.

(** C7: on every board reached from the initial one by clicks alone, the
    number of ["X"] cells is at least the number of ["O"] cells and exceeds
    it by at most one. *)
Theorem reachable_counts st :
  reachable st ->
  count_mark O (squares st) <= count_mark X (squares st)
  /\ count_mark X (squares st) <= count_mark O (squares st) + 1.
Proof.
  intros Hst. apply reachable_counts_agree in Hst. unfold counts_agree in Hst.
  destruct (xIsNext st); lia.
Qed.

Lemma reachable_counts_witness :
  count_mark O (squares (play initial top_row_clicks))
  <= count_mark X (squares (play initial top_row_clicks))
  /\ count_mark X (squares (play initial top_row_clicks))
     <= count_mark O (squares (play initial top_row_clicks)) + 1.
Proof.
  apply (reachable_counts (play initial top_row_clicks)).
  apply reachable_play. unfold top_row_clicks. repeat constructor.
Defined.

Lemma filled_by_array_set_off sq i v w l :
  ~ on_line i l -> filled_by (array_set sq i v) w l -> filled_by sq w l.
Proof.
  destruct l as [[a b] c]. simpl. intros Hoff.
  rewrite !get_array_set_ne by tauto. done.
Qed.

Lemma on_line_dec i l : on_line i l \/ ~ on_line i l.
Proof.
  destruct l as [[a b] c]. simpl.
  destruct (decide (i = a)), (decide (i = b)), (decide (i = c)); tauto.
Qed.

(** When all completed lines of a list carry one mark, the loop reports
    that mark as soon as one line of the list is filled by it, wherever
    the line stands in the list. *)
Lemma scan_winner_one_mark sq ls w :
  (forall l1 l2 w1 w2,
      l1 ∈ ls -> l2 ∈ ls -> filled_by sq w1 l1 -> filled_by sq w2 l2 -> w1 = w2) ->
  winner (scan sq ls) = Mark w <-> exists l, l ∈ ls /\ filled_by sq w l.
Proof.
  intros Hone. rewrite scan_winner_iff. split.
  - intros (pre & l & post & -> & Hl & _). exists l. split; [|done].
    apply elem_of_app. right. apply list_elem_of_here.
  - intros (l & Hin & Hl).
    destruct (list_elem_of_split _ _ Hin) as (pre & post & ->).
    exists pre, l, post. split; [done|]. split; [done|].
    intros l' Hl' Hother.
    assert (Heq : other w = w).
    { apply (Hone l' l); [|done|done|done].
      apply elem_of_app. by left. }
    by destruct w.
Qed.

Lemma scan_winner_permutation sq ls1 ls2 :
  (forall l1 l2 w1 w2,
      l1 ∈ ls1 -> l2 ∈ ls1 -> filled_by sq w1 l1 -> filled_by sq w2 l2 -> w1 = w2) ->
  ls2 ≡ₚ ls1 ->
  winner (scan sq ls2) = winner (scan sq ls1).
Proof.
  intros Hone Hperm.
  assert (Hone2 : forall l1 l2 w1 w2,
      l1 ∈ ls2 -> l2 ∈ ls2 -> filled_by sq w1 l1 -> filled_by sq w2 l2 -> w1 = w2).
  { intros l1 l2 w1 w2 H1 H2. rewrite Hperm in H1, H2. by apply Hone. }
  assert (Hboth : forall w,
      winner (scan sq ls2) = Mark w <-> winner (scan sq ls1) = Mark w).
  { intros w. rewrite !scan_winner_one_mark by done.
    by setoid_rewrite Hperm. }
  pose proof (scan_winner_not_Hole sq ls1) as Hn1.
  pose proof (scan_winner_not_Hole sq ls2) as Hn2.
  destruct (winner (scan sq ls2)) as [| |w2] eqn:H2; [done| |].
  - destruct (winner (scan sq ls1)) as [| |w1] eqn:H1; [done|done|].
    by apply (Hboth w1).
  - symmetry. by apply (Hboth w2).
Qed.

(** C2, as the specification states it, fails: the run
    [double_win_clicks] is legal alternating play, and its last click
    completes the top row and the left column at once.  The scan reports
    the top row because it comes first; scanned in the opposite order the
    same board gives the left column. *)
Lemma two_lines_completed_at_once :
  reachable (play initial double_win_clicks)
  /\ squares (play initial double_win_clicks)
     = [ Mark X; Mark X; Mark X;
         Mark X; Mark O; Mark O;
         Mark X; Mark O; Mark O ]
  /\ (0, 1, 2) ∈ lines /\ (0, 3, 6) ∈ lines /\ (0, 1, 2) <> (0, 3, 6)
  /\ filled_by (squares (play initial double_win_clicks)) X (0, 1, 2)
  /\ filled_by (squares (play initial double_win_clicks)) X (0, 3, 6)
  /\ line (calculateWinner (squares (play initial double_win_clicks))) = [0; 1; 2]
  /\ line (scan (squares (play initial double_win_clicks)) (reverse lines))
     = [0; 3; 6].
Proof.
  split.
  { apply reachable_play. unfold double_win_clicks. repeat constructor. }
  split; [reflexivity|].
  split; [apply list_elem_of_In; simpl; tauto|].
  split; [apply list_elem_of_In; simpl; tauto|].
  split; [discriminate|].
  repeat split.
Qed.

(** As soon as a line is completed on a board of a game, the state is
    what the last move made, and every completed line passes through the
    cell of that move. *)
Lemma reachable_last_move st l w :
  reachable st -> l ∈ lines -> filled_by (squares st) w l ->
  exists i, last_move st i /\ through (squares st) i.
Proof.
  intros Hst. revert l w.
  induction Hst as [|st index Hst IH Hindex]; intros l w Hl Hw.
  - exfalso.
    assert (Hg : gameOver (squares initial) = false) by reflexivity.
    apply (gameOver_false_not_completed _ l Hg Hl). by exists w.
  - destruct (handleSquareClick_cases st index) as [Hsame|(Hfree & Hg & Hmove)].
    + rewrite Hsame in Hw |- *. by apply (IH l w).
    + exists index. split.
      { exists st. by repeat split. }
      rewrite Hmove. simpl. intros l' w' Hl' Hw'.
      destruct (on_line_dec index l') as [Hon|Hoff].
      * split; [done|]. by apply (filled_by_on_line _ _ l').
      * exfalso. apply (gameOver_false_not_completed _ l' Hg Hl').
        exists w'. by eapply filled_by_array_set_off.
Qed.

(** C2 (amended): on every board reached from the initial one by clicks,
    any two completed winning lines are filled by the same mark and share
    a cell, the cell of the last move, which holds that mark; so the
    winner that the scan reports does not depend on the order in which
    the lines are scanned (only the reported line can). *)
Theorem reachable_one_winner st :
  reachable st ->
  (forall l1 l2 w1 w2,
      l1 ∈ lines -> l2 ∈ lines ->
      filled_by (squares st) w1 l1 -> filled_by (squares st) w2 l2 ->
      w1 = w2
      /\ exists i, on_line i l1 /\ on_line i l2
                   /\ last_move st i
                   /\ get (squares st) i = Mark w1)
  /\ (forall ls, ls ≡ₚ lines ->
        winner (scan (squares st) ls) = winner (calculateWinner (squares st))).
Proof.
  intros Hst.
  assert (Hpair : forall l1 l2 w1 w2,
      l1 ∈ lines -> l2 ∈ lines ->
      filled_by (squares st) w1 l1 -> filled_by (squares st) w2 l2 ->
      w1 = w2
      /\ exists i, on_line i l1 /\ on_line i l2
                   /\ last_move st i
                   /\ get (squares st) i = Mark w1).
  { intros l1 l2 w1 w2 Hl1 Hl2 Hw1 Hw2.
    destruct (reachable_last_move st l1 w1 Hst Hl1 Hw1) as (i & Hlast & Hi).
    destruct (Hi l1 w1 Hl1 Hw1) as [Hon1 Hget1].
    destruct (Hi l2 w2 Hl2 Hw2) as [Hon2 Hget2].
    split; [congruence|]. by exists i. }
  split; [done|]. intros ls Hperm. unfold calculateWinner.
  apply scan_winner_permutation; [|done].
  intros l1 l2 w1 w2 Hl1 Hl2 Hw1 Hw2.
  by destruct (Hpair l1 l2 w1 w2 Hl1 Hl2 Hw1 Hw2).
Qed.

Lemma reachable_one_winner_witness :
  X = X
  /\ exists i, on_line i (0, 1, 2) /\ on_line i (0, 3, 6)
               /\ last_move (play initial double_win_clicks) i
               /\ get (squares (play initial double_win_clicks)) i = Mark X.
Proof.
  apply (reachable_one_winner (play initial double_win_clicks)).
  - apply reachable_play. unfold double_win_clicks. repeat constructor.
  - apply list_elem_of_In. simpl. tauto.
  - apply list_elem_of_In. simpl. tauto.
  - repeat split.
  - repeat split.
Defined.
End Play.

(** ** Runs of clicks *)

Section Runs.
Implicit Types (st : state) (sq : list cell) (l : nat * nat * nat) (w : player).

Lemma play_cons st index clicks :
  play st (index :: clicks) = play (handleSquareClick st index) clicks.
Proof. reflexivity. Qed.

Lemma play_app st clicks1 clicks2 :
  play st (clicks1 ++ clicks2) = play (play st clicks1) clicks2.
Proof. unfold play. apply foldl_app. Qed.

(** The three ways a click can go: the cell holds a mark, the game is
    over, or the move is made. *)
Lemma handleSquareClick_three st index :
  (truthy (get (squares st) index) = true /\ handleSquareClick st index = st)
  \/ (gameOver (squares st) = true /\ handleSquareClick st index = st)
  \/ (truthy (get (squares st) index) = false
      /\ gameOver (squares st) = false
      /\ handleSquareClick st index
         = {| squares := array_set (squares st) index (Mark (currentPlayer st));
              xIsNext := negb (xIsNext st) |}).
Proof.
  unfold handleSquareClick.
  destruct (truthy (get (squares st) index)); [by left|].
  destruct (gameOver (squares st)); [by right; left|]. by right; right.
Qed.

Lemma handleSquareClick_game_over st index :
  gameOver (squares st) = true -> handleSquareClick st index = st.
Proof. intros Hg. unfold handleSquareClick. by rewrite Hg, orb_true_r. Qed.

Lemma play_game_over st clicks :
  gameOver (squares st) = true -> play st clicks = st.
Proof.
  intros Hg. induction clicks as [|index clicks IH]; [done|].
  by rewrite play_cons, handleSquareClick_game_over.
Qed.

Lemma handleSquareClick_keeps_mark st index i w :
  get (squares st) i = Mark w ->
  get (squares (handleSquareClick st index)) i = Mark w.
Proof.
  intros Hi.
  destruct (handleSquareClick_cases st index) as [->|(Hfree & _ & ->)]; [done|].
  simpl. rewrite get_array_set_ne; [done|].
  intros ->. by rewrite Hi in Hfree.
Qed.

Lemma play_keeps_mark st clicks i w :
  get (squares st) i = Mark w -> get (squares (play st clicks)) i = Mark w.
Proof.
  revert st. induction clicks as [|index clicks IH]; intros st Hi; [done|].
  rewrite play_cons. apply IH. by apply handleSquareClick_keeps_mark.
Qed.

Lemma is_board_click st index :
  index < 9 -> is_board (squares st) ->
  is_board (squares (handleSquareClick st index)).
Proof.
  intros Hindex [Hlen Hholes].
  destruct (handleSquareClick_cases st index) as [->|(_ & _ & ->)]; [done|].
  simpl. unfold array_set. rewrite decide_True by lia. split.
  - by rewrite length_insert.
  - by apply Forall_insert.
Qed.

Lemma reachable_is_board st : reachable st -> is_board (squares st).
Proof.
  induction 1 as [|st index _ IH Hindex].
  - split; [reflexivity|]. repeat constructor; discriminate.
  - by apply is_board_click.
Qed.

Lemma reachable_play_from st clicks :
  reachable st -> Forall (fun index => index < 9) clicks ->
  reachable (play st clicks).
Proof.
  intros Hst Hall. revert st Hst.
  induction Hall as [|index clicks Hindex _ IH]; intros st Hst; [done|].
  rewrite play_cons. apply IH. by apply reachable_click.
Qed.

(** X1: a second click on the same cell changes nothing: whatever the
    first click did, the cell then holds a mark or the click was already
    refused. *)
Theorem handleSquareClick_twice st index :
  handleSquareClick (handleSquareClick st index) index
  = handleSquareClick st index.
Proof.
  destruct (handleSquareClick_cases st index) as [Hsame|(_ & _ & Hmove)].
  - by rewrite !Hsame.
  - rewrite Hmove. unfold handleSquareClick at 1. simpl.
    by rewrite get_array_set_eq.
Qed.

(** X2: a mark, once on the board, stays where it is through any run of
    clicks on the cells 0..8. *)
Theorem marks_are_permanent st clicks i w :
  Forall (fun index => index < 9) clicks ->
  get (squares st) i = Mark w ->
  get (squares (play st clicks)) i = Mark w.
Proof. intros _. apply play_keeps_mark. Qed.

Lemma marks_are_permanent_witness :
  get (squares (play (play initial [4]) [0; 4; 8])) 4 = Mark X
  /\ squares (play (play initial [4]) [0; 4; 8])
     = [ Mark O; Null; Null; Null; Mark X; Null; Null; Null; Mark X ].
Proof.
  split; [|reflexivity].
  apply (marks_are_permanent (play initial [4]) [0; 4; 8] 4 X).
  - repeat constructor.
  - reflexivity.
Defined.

(** X3: once a winner is reported or the board is a draw, no run of
    clicks changes the board or the turn. *)
Theorem play_after_game_over st clicks :
  (exists w t, evaluate (squares st) = Won w t)
  \/ evaluate (squares st) = Draw ->
  play st clicks = st.
Proof.
  intros Hover. apply play_game_over. apply gameOver_evaluate.
  destruct Hover as [(w & t & ->)| ->]; done.
Qed.

Lemma play_after_game_over_witness :
  play (play initial top_row_clicks) [5; 6; 7; 8] = play initial top_row_clicks.
Proof.
  apply (play_after_game_over (play initial top_row_clicks) [5; 6; 7; 8]).
  left. exists X, [0; 1; 2]. reflexivity.
Defined.

(** X4: every board of a game has exactly nine cells, each [null], ["X"]
    or ["O"]: clicks on the nine buttons never lengthen the array and
    never leave a hole in it. *)
Theorem reachable_board st :
  reachable st ->
  length (squares st) = 9
  /\ forall i, i < 9 ->
       get (squares st) i = Null \/ exists w, get (squares st) i = Mark w.
Proof.
  intros Hst. destruct (reachable_is_board st Hst) as [Hlen Hholes].
  split; [done|]. intros i Hi.
  destruct (lookup_lt_is_Some_2 (squares st) i) as [v Hv]; [lia|].
  unfold get. rewrite Hv. simpl.
  rewrite Forall_forall in Hholes.
  assert (Hne : v <> Hole) by (apply Hholes; by eapply list_elem_of_lookup_2).
  destruct v; [done|by left|right; by eexists].
Qed.

Lemma reachable_board_witness :
  length (squares (play initial double_win_clicks)) = 9.
Proof.
  apply (reachable_board (play initial double_win_clicks)).
  apply reachable_play. unfold double_win_clicks. repeat constructor.
Defined.
End Runs.

(** ** How a game ends *)

Section Endings.
Implicit Types (st : state) (sq : list cell) (l : nat * nat * nat) (w : player).

Lemma winner_filled sq w :
  winner (calculateWinner sq) = Mark w ->
  exists l, l ∈ lines /\ filled_by sq w l /\ line (calculateWinner sq) = triple l.
Proof.
  unfold calculateWinner. intros Hw.
  destruct (scan_cases sq lines)
    as [[Hs _]|(pre & l & post & w' & Heq & _ & Hl & Hs)];
    rewrite Hs in Hw |- *; simpl in *; [discriminate|].
  injection Hw as ->. exists l. split; [|done].
  rewrite Heq. apply elem_of_app. right. apply list_elem_of_here.
Qed.

Lemma evaluate_Draw sq : evaluate sq = Draw <-> isDraw sq = true.
Proof.
  unfold evaluate, isDraw.
  destruct (winner (calculateWinner sq)); simpl;
    destruct (isBoardFull sq); done.
Qed.

(** A completed line on a board of a game was completed by the last
    move, so it carries the mark of the player who is not to move. *)
Lemma reachable_filled_by_mover st l w :
  reachable st -> l ∈ lines -> filled_by (squares st) w l ->
  w = other (currentPlayer st).
Proof.
  induction 1 as [|st index _ IH _]; intros Hl Hw.
  - exfalso.
    assert (Hg : gameOver (squares initial) = false) by reflexivity.
    apply (gameOver_false_not_completed _ l Hg Hl). by exists w.
  - destruct (handleSquareClick_cases st index) as [Hsame|(_ & Hg & Hmove)].
    + rewrite Hsame in Hw |- *. by apply IH.
    + rewrite Hmove in Hw |- *. simpl in Hw.
      destruct (on_line_dec index l) as [Hon|Hoff].
      * pose proof (filled_by_on_line _ _ _ _ Hw Hon) as Hget.
        rewrite get_array_set_eq in Hget. injection Hget as <-.
        unfold currentPlayer. simpl. by destruct (xIsNext st).
      * exfalso. apply (gameOver_false_not_completed _ l Hg Hl).
        exists w. by eapply filled_by_array_set_off.
Qed.

(** X5: in a game, the winner is the player who made the last move: when
    ["X"] is reported as the winner it is O's turn, and the other way
    round. *)
Theorem winner_moved_last st w t :
  reachable st ->
  evaluate (squares st) = Won w t ->
  currentPlayer st = other w /\ xIsNext st = bool_decide (w = O).
Proof.
  intros Hst Hw.
  assert (Hwin : winner (calculateWinner (squares st)) = Mark w).
  { apply evaluate_Won_winner. by exists t. }
  destruct (winner_filled _ _ Hwin) as (l & Hl & Hfilled & _).
  pose proof (reachable_filled_by_mover st l w Hst Hl Hfilled) as Hmover.
  unfold currentPlayer in *. by destruct (xIsNext st), w.
Qed.

Lemma winner_moved_last_witness :
  currentPlayer (play initial top_row_clicks) = O
  /\ xIsNext (play initial top_row_clicks) = false.
Proof.
  apply (winner_moved_last (play initial top_row_clicks) X [0; 1; 2]).
  - apply reachable_play. unfold top_row_clicks. repeat constructor.
  - reflexivity.
Defined.

Lemma count_marks_full sq :
  Forall (fun v => v <> Hole) sq ->
  every truthy sq = true ->
  count_mark X sq + count_mark O sq = length sq.
Proof.
  induction 1 as [|v sq Hv _ IH]; [done|]. simpl. intros Hfull.
  apply andb_prop in Hfull as [Hhead Htail].
  rewrite !count_mark_cons. specialize (IH Htail).
  destruct v as [| |[|]]; try done;
    repeat case_decide; try congruence; lia.
Qed.

(** X6: a game can only be drawn with five ["X"] and four ["O"] on the
    board, after X's fifth move. *)
Theorem draw_counts st :
  reachable st ->
  evaluate (squares st) = Draw ->
  count_mark X (squares st) = 5
  /\ count_mark O (squares st) = 4
  /\ xIsNext st = false.
Proof.
  intros Hst Hdraw.
  destruct (reachable_is_board st Hst) as [Hlen Hholes].
  pose proof (reachable_counts_agree st Hst) as Hagree.
  apply evaluate_Draw in Hdraw. unfold isDraw in Hdraw.
  apply andb_prop in Hdraw as [_ Hfull].
  pose proof (count_marks_full _ Hholes Hfull) as Hsum.
  unfold counts_agree in Hagree. destruct (xIsNext st); split_and!; lia || done.
Qed.

Lemma draw_counts_witness :
  count_mark X (squares (play initial drawn_clicks)) = 5
  /\ count_mark O (squares (play initial drawn_clicks)) = 4
  /\ xIsNext (play initial drawn_clicks) = false.
Proof.
  apply (draw_counts (play initial drawn_clicks)).
  - apply reachable_play. unfold drawn_clicks. repeat constructor.
  - reflexivity.
Defined.

(** X11: in a game the board alone tells whose turn it is: two states of
    play with the same board are the same state. *)
Theorem board_determines_turn st1 st2 :
  reachable st1 -> reachable st2 ->
  squares st1 = squares st2 ->
  st1 = st2.
Proof.
  intros H1 H2 Heq.
  apply reachable_counts_agree in H1, H2. unfold counts_agree in *.
  destruct st1 as [sq1 x1], st2 as [sq2 x2]. simpl in *. subst sq2.
  f_equal. destruct x1, x2; try done; lia.
Qed.

Lemma board_determines_turn_witness :
  play initial [4; 4; 0] = play initial [4; 0].
Proof.
  apply (board_determines_turn (play initial [4; 4; 0]) (play initial [4; 0])).
  - apply reachable_play. repeat constructor.
  - apply reachable_play. repeat constructor.
  - reflexivity.
Defined.

Lemma every_false_Null sq :
  every truthy sq = false -> exists i, i < length sq /\ get sq i = Null.
Proof.
  induction sq as [|v sq IH]; [done|]. simpl. intros Hfull.
  apply andb_false_iff in Hfull as [Hhead|Htail].
  - exists 0. split; [lia|]. rewrite get_cons_0. by destruct v.
  - destruct (IH Htail) as (i & Hi & Hnull). exists (S i). split; [lia|done].
Qed.

Lemma gameOver_false_Null sq :
  gameOver sq = false -> exists i, i < length sq /\ get sq i = Null.
Proof.
  unfold gameOver, isDraw. intros Hg. apply every_false_Null.
  destruct (truthy (winner (calculateWinner sq))); [done|]. done.
Qed.

(** X7: every game ends: after a run of clicks that has touched each of
    the nine cells at least once, in any order and with any repetitions,
    the game is over. *)
Theorem play_all_cells_game_over st clicks :
  reachable st ->
  Forall (fun index => index < 9) clicks ->
  (forall i, i < 9 -> i ∈ clicks) ->
  gameOver (squares (play st clicks)) = true.
Proof.
  intros Hst Hclicks Hall.
  destruct (gameOver (squares (play st clicks))) eqn:Hg; [done|]. exfalso.
  pose proof (reachable_play_from st clicks Hst Hclicks) as Hend.
  destruct (reachable_is_board _ Hend) as [Hlen _].
  destruct (gameOver_false_Null _ Hg) as (i & Hi & Hnull). rewrite Hlen in Hi.
  destruct (list_elem_of_split _ _ (Hall i Hi)) as (before & after & ->).
  rewrite play_app, play_cons in Hg, Hnull.
  destruct (handleSquareClick_three (play st before) i)
    as [[Hocc Hsame]|[[Hover Hsame]|(_ & _ & Hmove)]].
  - apply truthy_Mark in Hocc as [w Hw].
    rewrite Hsame in Hnull.
    rewrite (play_keeps_mark _ after i w Hw) in Hnull. discriminate.
  - rewrite Hsame, (play_game_over _ after Hover) in Hg. congruence.
  - rewrite Hmove in Hnull.
    rewrite (play_keeps_mark _ after i (currentPlayer (play st before)))
      in Hnull; [discriminate|].
    simpl. apply get_array_set_eq.
Qed.

Lemma play_all_cells_game_over_witness :
  gameOver (squares (play initial [8; 7; 6; 5; 4; 3; 2; 1; 0])) = true.
Proof.
  apply (play_all_cells_game_over initial [8; 7; 6; 5; 4; 3; 2; 1; 0]).
  - apply reachable_initial.
  - repeat constructor.
  - intros i Hi. apply list_elem_of_In. simpl. lia.
Defined.
End Endings.

(** ** How many marks a win takes *)

Section MarksOfAWin.
Implicit Types (st : state) (sq : list cell) (l : nat * nat * nat) (w : player).

(** Taking one mark off the board takes one off its count and leaves the
    other cells alone. *)
Lemma count_mark_erase sq i w :
  get sq i = Mark w ->
  exists sq',
    count_mark w sq = count_mark w sq' + 1
    /\ forall j, j <> i -> get sq' j = get sq j.
Proof.
  intros Hget. unfold get in Hget.
  destruct (sq !! i) as [v|] eqn:Hv; simpl in Hget; [subst v|discriminate].
  pose proof (lookup_lt_Some _ _ _ Hv) as Hi.
  exists (<[i := Null]> sq). split.
  - assert (Hfree : truthy (get (<[i := Null]> sq) i) = false).
    { unfold get. by rewrite list_lookup_insert_eq. }
    pose proof (count_mark_array_set w _ i w Hfree) as Hcount.
    unfold array_set in Hcount.
    rewrite decide_True in Hcount by (by rewrite length_insert).
    rewrite list_insert_insert_eq, (list_insert_id _ _ _ Hv) in Hcount.
    by rewrite decide_True in Hcount.
  - intros j Hj. unfold get. by rewrite list_lookup_insert_ne.
Qed.

Lemma three_marks sq w a b c :
  a <> b -> a <> c -> b <> c ->
  filled_by sq w (a, b, c) -> 3 <= count_mark w sq.
Proof.
  intros Hab Hac Hbc (Ha & Hb & Hc).
  destruct (count_mark_erase sq a w Ha) as (sq1 & Hcount1 & Hget1).
  rewrite <- (Hget1 b) in Hb by done. rewrite <- (Hget1 c) in Hc by done.
  destruct (count_mark_erase sq1 b w Hb) as (sq2 & Hcount2 & Hget2).
  rewrite <- (Hget2 c) in Hc by done.
  destruct (count_mark_erase sq2 c w Hc) as (sq3 & Hcount3 & _).
  lia.
Qed.

Lemma lines_distinct :
  Forall (fun l => let '(a, b, c) := l in a <> b /\ a <> c /\ b <> c) lines.
Proof.
  unfold lines. repeat (apply Forall_cons; split; [simpl; lia|]).
  apply Forall_nil. done.
Qed.

Lemma winner_three_marks sq w :
  winner (calculateWinner sq) = Mark w -> 3 <= count_mark w sq.
Proof.
  intros Hw. destruct (winner_filled _ _ Hw) as (l & Hl & Hfilled & _).
  pose proof lines_distinct as Hd. rewrite Forall_forall in Hd.
  specialize (Hd l Hl). destruct l as [[a b] c].
  destruct Hd as (Hab & Hac & Hbc). by apply (three_marks sq w a b c).
Qed.

(** X8: in a game nobody wins early: a reported winner has at least
    three marks on the board, and the board holds at least five marks. *)
Theorem no_early_win st w t :
  reachable st ->
  evaluate (squares st) = Won w t ->
  3 <= count_mark w (squares st)
  /\ 5 <= count_mark X (squares st) + count_mark O (squares st).
Proof.
  intros Hst Hw.
  assert (Hwin : winner (calculateWinner (squares st)) = Mark w).
  { apply evaluate_Won_winner. by exists t. }
  pose proof (winner_three_marks _ _ Hwin) as Hthree.
  split; [done|].
  pose proof (reachable_counts_agree st Hst) as Hagree.
  destruct (winner_filled _ _ Hwin) as (l & Hl & Hfilled & _).
  pose proof (reachable_filled_by_mover st l w Hst Hl Hfilled) as Hmover.
  unfold counts_agree, currentPlayer in *.
  destruct (xIsNext st), w; simpl in Hmover; try discriminate; lia.
Qed.

Lemma no_early_win_witness :
  3 <= count_mark X (squares (play initial top_row_clicks))
  /\ 5 <= count_mark X (squares (play initial top_row_clicks))
          + count_mark O (squares (play initial top_row_clicks)).
Proof.
  apply (no_early_win (play initial top_row_clicks) X [0; 1; 2]).
  - apply reachable_play. unfold top_row_clicks. repeat constructor.
  - reflexivity.
Defined.
End MarksOfAWin.

(** ** The two players are treated alike *)

Section Symmetry.
Implicit Types (st : state) (sq : list cell) (l : nat * nat * nat) (w : player).

Lemma get_swap sq i : get (swap_cell <$> sq) i = swap_cell (get sq i).
Proof. unfold get. rewrite list_lookup_fmap. by destruct (sq !! i). Qed.

Lemma truthy_swap v : truthy (swap_cell v) = truthy v.
Proof. by destruct v. Qed.

Lemma strict_eq_swap v1 v2 :
  strict_eq (swap_cell v1) (swap_cell v2) = strict_eq v1 v2.
Proof. by destruct v1 as [| |[|]], v2 as [| |[|]]. Qed.

Lemma line_test_swap sq l : line_test (swap_cell <$> sq) l = line_test sq l.
Proof.
  destruct l as [[a b] c]. unfold line_test.
  by rewrite !get_swap, truthy_swap, !strict_eq_swap.
Qed.

Lemma scan_swap sq ls :
  scan (swap_cell <$> sq) ls
  = {| winner := swap_cell (winner (scan sq ls)); line := line (scan sq ls) |}.
Proof.
  induction ls as [|[[a b] c] rest IH]; [done|].
  rewrite !scan_cons, line_test_swap, get_swap.
  by destruct (line_test sq (a, b, c)).
Qed.

Lemma every_truthy_swap sq : every truthy (swap_cell <$> sq) = every truthy sq.
Proof.
  induction sq as [|v sq IH]; [done|].
  rewrite fmap_cons. simpl. rewrite IH. by destruct v.
Qed.

Lemma array_set_swap sq i v :
  swap_cell <$> array_set sq i v = array_set (swap_cell <$> sq) i (swap_cell v).
Proof.
  unfold array_set. rewrite length_fmap. case_decide.
  - apply list_fmap_insert.
  - by rewrite !fmap_app, fmap_replicate.
Qed.

Lemma gameOver_swap sq : gameOver (swap_cell <$> sq) = gameOver sq.
Proof.
  unfold gameOver, isDraw, isBoardFull, calculateWinner.
  rewrite scan_swap, every_truthy_swap. simpl. by rewrite truthy_swap.
Qed.

Lemma currentPlayer_swap st : currentPlayer (swap_state st) = other (currentPlayer st).
Proof. unfold currentPlayer. simpl. by destruct (xIsNext st). Qed.

Lemma handleSquareClick_swap st index :
  handleSquareClick (swap_state st) index = swap_state (handleSquareClick st index).
Proof.
  unfold handleSquareClick.
  rewrite currentPlayer_swap. simpl squares at 1 2.
  rewrite get_swap, truthy_swap, gameOver_swap.
  destruct (truthy (get (squares st) index) || gameOver (squares st)); [done|].
  unfold swap_state. simpl. by rewrite array_set_swap.
Qed.

(** X9: the win detection treats the two marks alike: on the board with
    ["X"] and ["O"] exchanged it reports the other winner, or none as
    before, with the same line. *)
Theorem calculateWinner_swap sq :
  calculateWinner (swap_cell <$> sq)
  = {| winner := swap_cell (winner (calculateWinner sq));
       line := line (calculateWinner sq) |}.
Proof. apply scan_swap. Qed.

(** X10: the rules treat the two players alike: the same run of clicks
    from the state with the marks exchanged and the other player to move
    ends in the end state with the marks exchanged and the other player
    to move. *)
Theorem play_swap st clicks :
  play (swap_state st) clicks = swap_state (play st clicks).
Proof.
  revert st. induction clicks as [|index clicks IH]; intros st; [done|].
  by rewrite !play_cons, handleSquareClick_swap, IH.
Qed.
End Symmetry.

(** ** The rendered view *)

Section View.
Implicit Types (st : state) (sq : list cell) (w : player) (b : button).

(** The button that [Board] renders for the value [val] at [idx]. *)
Lemma Board_lookup sq f wl dis idx b :
  Board sq f wl dis !! idx = Some (Some b) <->
  exists val,
    sq !! idx = Some val /\ val <> Hole
    /\ b = Square {| value := val; onClick := fun _ => f idx;
                     isWinning := includes wl idx; disabled := dis |}.
Proof.
  unfold Board. rewrite list_lookup_imap.
  destruct (sq !! idx) as [val|]; simpl.
  - split.
    + intros Hb. exists val. split; [done|].
      destruct val; simplify_eq; by split.
    + intros (val' & Hval & Hne & ->). simplify_eq. by destruct val'.
  - split; [done|]. by intros (val & Hval & _).
Qed.

Lemma get_lookup sq idx val : sq !! idx = Some val -> get sq idx = val.
Proof. intros H. unfold get. by rewrite H. Qed.

Lemma every_truthy_lookup sq idx val :
  every truthy sq = true -> sq !! idx = Some val -> val <> Hole ->
  truthy val = true.
Proof.
  revert idx. induction sq as [|v sq IH]; intros idx Hfull Hval Hne; [done|].
  simpl in Hfull. apply andb_prop in Hfull as [Hhead Htail].
  destruct idx as [|idx]; simpl in Hval.
  - simplify_eq. by destruct val.
  - by apply (IH idx).
Qed.

Lemma winner_truthy_gameOver sq :
  truthy (winner (calculateWinner sq)) = true -> gameOver sq = true.
Proof. intros H. unfold gameOver. by rewrite H. Qed.

(** X12: from a state of play the view has one button for each of the
    nine cells; the button at position [idx] shows that cell and its
    click is the click on [idx]; so every click the view can deliver,
    Play Again included, leads to a state of play again. *)
Theorem view_of_reachable st :
  reachable st ->
  length (board (App st)) = 9
  /\ (forall idx, idx < 9 ->
        exists b, board (App st) !! idx = Some (Some b)
                  /\ children b = get (squares st) idx
                  /\ button_onClick b () = handleSquareClick st idx
                  /\ reachable (button_onClick b ()))
  /\ reachable (play_again (App st) ()).
Proof.
  intros Hst. destruct (reachable_is_board st Hst) as [Hlen Hholes].
  split; [|split].
  - simpl. unfold Board. by rewrite length_imap.
  - intros idx Hidx.
    destruct (lookup_lt_is_Some_2 (squares st) idx) as [val Hval]; [lia|].
    assert (Hne : val <> Hole).
    { rewrite Forall_forall in Hholes. apply Hholes.
      by eapply list_elem_of_lookup_2. }
    eexists. split.
    { simpl. apply Board_lookup. exists val. by split. }
    simpl. split; [by rewrite (get_lookup _ _ _ Hval)|]. split; [done|].
    by apply reachable_click.
  - apply reachable_initial.
Qed.

Lemma view_of_reachable_witness :
  length (board (App (play initial top_row_clicks))) = 9.
Proof.
  apply (view_of_reachable (play initial top_row_clicks)).
  apply reachable_play. unfold top_row_clicks. repeat constructor.
Defined.

(** X13: a button of the view is disabled exactly when the handler would
    ignore the click on its cell. *)
Theorem disabled_iff_click_ignored st idx b :
  board (App st) !! idx = Some (Some b) ->
  button_disabled b = true <-> button_onClick b () = st.
Proof.
  simpl. intros Hb. apply Board_lookup in Hb as (val & Hval & Hne & ->).
  simpl. pose proof (get_lookup _ _ _ Hval) as Hget. split.
  - intros Hdis. unfold handleSquareClick. rewrite Hget.
    apply orb_prop in Hdis as [Hwin|Hocc].
    + by rewrite (winner_truthy_gameOver _ Hwin), orb_true_r.
    + by rewrite Hocc.
  - intros Hsame.
    destruct (handleSquareClick_three st idx)
      as [[Hocc _]|[[Hover _]|(_ & _ & Hmove)]].
    + rewrite Hget in Hocc. by rewrite Hocc, orb_true_r.
    + unfold gameOver in Hover.
      destruct (truthy (winner (calculateWinner (squares st)))); [done|].
      simpl in *. unfold isDraw in Hover.
      apply andb_prop in Hover as [_ Hfull].
      by apply (every_truthy_lookup (squares st) idx).
    + exfalso. rewrite Hmove in Hsame.
      apply (f_equal xIsNext) in Hsame. simpl in Hsame.
      by destruct (xIsNext st).
Qed.

Lemma disabled_iff_click_ignored_witness :
  button_disabled
    (Square {| value := Mark O;
               onClick := fun _ => handleSquareClick (State both_rows true) 4;
               isWinning := false; disabled := true |}) = true
  <-> handleSquareClick (State both_rows true) 4 = State both_rows true.
Proof.
  apply (disabled_iff_click_ignored (State both_rows true) 4).
  reflexivity.
Defined.
Lemma every_lookup_Null sq idx : sq !! idx = Some Null -> every truthy sq = false.
Proof.
  revert idx. induction sq as [|v sq IH]; intros idx Hval; [done|].
  simpl. destruct idx as [|idx]; simpl in Hval.
  - by simplify_eq.
  - rewrite (IH idx Hval). apply andb_false_r.
Qed.

Lemma statusText_current_player st :
  statusText st = "Current player: " +:+ mark_string (currentPlayer st)
  <-> gameOver (squares st) = false.
Proof.
  unfold statusText, gameOver.
  destruct (winner (calculateWinner (squares st))) as [| |w]; simpl.
  - by destruct (isDraw (squares st)), (currentPlayer st).
  - by destruct (isDraw (squares st)), (currentPlayer st).
  - by destruct w, (currentPlayer st).
Qed.

(** X14: the status line names the player to move exactly when the view
    has a button that is not disabled. *)
Theorem status_current_player_iff_enabled st :
  status (App st) = "Current player: " +:+ mark_string (currentPlayer st)
  <-> exists idx b,
        board (App st) !! idx = Some (Some b) /\ button_disabled b = false.
Proof.
  change (status (App st)) with (statusText st).
  rewrite statusText_current_player. split.
  - intros Hg. destruct (gameOver_false_Null _ Hg) as (idx & Hidx & Hnull).
    destruct (lookup_lt_is_Some_2 (squares st) idx Hidx) as [val Hval].
    rewrite (get_lookup _ _ _ Hval) in Hnull. subst val.
    eexists idx, _. split.
    { simpl. apply Board_lookup. exists Null. by split. }
    simpl. unfold gameOver in Hg. apply orb_false_elim in Hg as [Hwin _].
    by rewrite Hwin.
  - intros (idx & b & Hb & Hdis). simpl in Hb.
    apply Board_lookup in Hb as (val & Hval & Hne & ->). simpl in Hdis.
    apply orb_false_elim in Hdis as [Hwin Hocc].
    unfold gameOver, isDraw, isBoardFull. rewrite Hwin. simpl.
    destruct val; [done| |done]. by rewrite (every_lookup_Null _ idx).
Qed.

Lemma elem_of_triple idx l : idx ∈ triple l <-> on_line idx l.
Proof.
  destruct l as [[a b] c]. simpl.
  rewrite !elem_of_cons, elem_of_nil. tauto.
Qed.

(** X15: when a winner is reported, each of the three cells of the
    reported line is rendered as a disabled button that shows the
    winner's mark and carries the classes [filled], the mark in lower
    case, and [winning]. *)
Theorem winning_line_highlighted st w t idx :
  evaluate (squares st) = Won w t ->
  idx ∈ t ->
  exists b,
    board (App st) !! idx = Some (Some b)
    /\ children b = Mark w
    /\ className b
       = "square filled " +:+ toLowerCase (mark_string w) +:+ " winning"
    /\ button_disabled b = true.
Proof.
  intros Hw Hidx. apply evaluate_Won in Hw.
  assert (Hwin : winner (calculateWinner (squares st)) = Mark w)
    by (by rewrite Hw).
  destruct (winner_filled _ _ Hwin) as (l & _ & Hfilled & Hline).
  rewrite Hw in Hline. simpl in Hline. subst t.
  apply elem_of_triple in Hidx.
  pose proof (filled_by_on_line _ _ _ _ Hfilled Hidx) as Hget.
  assert (Hval : squares st !! idx = Some (Mark w)).
  { unfold get in Hget.
    destruct (squares st !! idx) as [v|]; simpl in Hget; [|discriminate].
    by subst v. }
  eexists. split.
  { simpl. apply Board_lookup. exists (Mark w). by split. }
  rewrite Hw. simpl. unfold includes.
  rewrite bool_decide_eq_true_2 by (by apply elem_of_triple).
  split; [done|]. split; [by destruct w|]. done.
Qed.

Lemma winning_line_highlighted_witness :
  exists b,
    board (App (play initial top_row_clicks)) !! 1 = Some (Some b)
    /\ children b = Mark X
    /\ className b = "square filled x winning"
    /\ button_disabled b = true.
Proof.
  apply (winning_line_highlighted (play initial top_row_clicks) X [0; 1; 2] 1).
  - reflexivity.
  - apply list_elem_of_In. simpl. tauto.
Defined.

(** X16: no other button is highlighted: a button whose index is not in
    the reported line has one of the classes [square], [square filled x],
    [square filled o]; without a winner that is every button. *)
Theorem only_winning_line_highlighted st idx b :
  board (App st) !! idx = Some (Some b) ->
  idx ∉ line (calculateWinner (squares st)) ->
  className b = "square"
  \/ className b = "square filled x"
  \/ className b = "square filled o".
Proof.
  simpl. intros Hb Hout. apply Board_lookup in Hb as (val & _ & _ & ->).
  simpl. unfold includes. rewrite bool_decide_eq_false_2 by done.
  destruct val as [| |[|]]; simpl; auto.
Qed.

Lemma only_winning_line_highlighted_witness :
  className
    (Square {| value := Mark O;
               onClick := fun _ => handleSquareClick (play initial top_row_clicks) 3;
               isWinning := false; disabled := true |}) = "square"
  \/ className
       (Square {| value := Mark O;
                  onClick := fun _ => handleSquareClick (play initial top_row_clicks) 3;
                  isWinning := false; disabled := true |}) = "square filled x"
  \/ className
       (Square {| value := Mark O;
                  onClick := fun _ => handleSquareClick (play initial top_row_clicks) 3;
                  isWinning := false; disabled := true |}) = "square filled o".
Proof.
  apply (only_winning_line_highlighted (play initial top_row_clicks) 3).
  - reflexivity.
  - change (line (calculateWinner (squares (play initial top_row_clicks))))
      with [0; 1; 2].
    intros Hin. apply list_elem_of_In in Hin. simpl in Hin. lia.
Defined.
End View.
